(** * Novella: the hybrid two-stage nearest-neighbour recommender

    A shallow embedding of [qrecsys.py] and [recsys_pipeline.py].

    Conventions of the embedding.
    - A 2-D numpy array is the list of its rows; embedding coordinates are
      exact integers (fixed-point values) instead of floats, and a distance
      is represented by its square, which orders rows exactly as the
      distance itself does.
    - Python exceptions are values of [exn]; a computation that may raise
      has type [result A].
    - [np.argsort] is used by the source with its default [kind]; numpy
      promises an index permutation that sorts the input and says nothing
      about the order of equal keys.  That contract is the class [ArgSort];
      two implementations of it are given further down. *)

From Stdlib Require Import ZArith Lia.
From stdpp Require Import base list sorting gmap strings.

Local Open Scope Z_scope.

(** ** Python exceptions *)

Inductive value_error :=
  | MinSamples            (* sklearn check_array: 0 sample(s) *)
  | MinFeatures           (* sklearn check_array: 0 feature(s) *)
  | IncompatibleDimension (* sklearn check_pairwise_arrays *)
  | NotScalar.            (* pandas Series.item() on a row of size <> 1 *)

Inductive type_error :=
  | TooManyPositional
  | UnexpectedKeyword (name : string)
  | MultipleValues (name : string)
  | MissingArgument (name : string)
  | BadOperand.

Inductive exn :=
  | ValueError (why : value_error)
  | TypeError (why : type_error)
  | IndexError
  | KeyError.

Definition result (A : Type) : Type := exn + A.

Definition raise {A} (e : exn) : result A := inl e.

Global Instance result_ret : MRet result := λ A a, inr a.
Global Instance result_bind : MBind result := λ A B f m,
  match m with
  | inl e => inl e
  | inr a => f a
  end.

Definition raises {A} (m : result A) : Prop := ∃ e, m = inl e.

(** ** Python sequences *)

(** [l[:K]]: a negative stop counts from the end, and every stop is clipped
    to the length of the sequence. *)
Definition py_slice_to {A} (l : list A) (K : Z) : list A :=
  if decide (0 ≤ K) then take (Z.to_nat K) l
  else take (length l - Z.to_nat (- K))%nat l.

(** [l[0]] *)
Definition py_getitem0 {A} (l : list A) : result A :=
  match l with
  | [] => raise IndexError
  | a :: _ => mret a
  end.

(** The body of a [for] loop threaded through [result]: the first exception
    leaves the loop. *)
Fixpoint for_each {S A} (body : S → A → result S) (s : S) (l : list A)
    : result S :=
  match l with
  | [] => mret s
  | a :: l => s' ← body s a; for_each body s' l
  end.

(** ** numpy and scikit-learn *)

Abbreviation ndarray := (list (list Z)).

Definition nrows (a : ndarray) : nat := length a.
Definition ncols (a : ndarray) : nat :=
  match a with
  | [] => 0%nat
  | r :: _ => length r
  end.

(** Squared Euclidean distance between two rows. *)
Definition sqdist (u v : list Z) : Z :=
  foldr Z.add 0 (zip_with (λ a b, (a - b) * (a - b)) u v).

(** [sklearn.utils.check_array] with its defaults, on a 2-D array. *)
Definition check_array (a : ndarray) : result unit :=
  if decide (nrows a = 0%nat) then raise (ValueError MinSamples)
  else if decide (ncols a = 0%nat) then raise (ValueError MinFeatures)
  else mret ().

(** An array with no row or no column. *)
Definition is_empty (a : ndarray) : Prop := nrows a = 0%nat ∨ ncols a = 0%nat.

(** Every row has the width of the array, as in any numpy array. *)
Definition rectangular (a : ndarray) : Prop :=
  Forall (λ r, length r = ncols a) a.

(** [sklearn.metrics.pairwise.euclidean_distances(X, Y)]: one row of
    distances per row of [X]. *)
Definition euclidean_distances (X Y : ndarray) : result ndarray :=
  _ ← check_array X;
  _ ← check_array Y;
  if decide (ncols X = ncols Y)
  then mret ((λ x, sqdist x <$> Y) <$> X)
  else raise (ValueError IncompatibleDimension).

(** The key of index [i] in the vector [d]. *)
Definition key (d : list Z) (i : nat) : Z := default 0 (d !! i).

(** The contract of [np.argsort] on a vector, for any [kind]. *)
Class ArgSort := {
  argsort : list Z → list nat;
  argsort_perm d : argsort d ≡ₚ seq 0 (length d);
  argsort_sorted d : StronglySorted (λ i j, key d i ≤ key d j) (argsort d)
}.

(** Ascending keys, equal keys in increasing index order: what
    [kind='stable'] returns. *)
Definition stable_le (d : list Z) (i j : nat) : Prop :=
  key d i < key d j ∨ (key d i = key d j ∧ (i ≤ j)%nat).

(** Ascending keys, equal keys in decreasing index order: an order that an
    unstable [kind] may return. *)
Definition unstable_le (d : list Z) (i j : nat) : Prop :=
  key d i < key d j ∨ (key d i = key d j ∧ (j ≤ i)%nat).


(** [np.argsort(a)] on a 2-D array sorts along the last axis, row by row. *)
Definition np_argsort `{ArgSort} (a : ndarray) : list (list nat) :=
  argsort <$> a.

(** [np.setdiff1d(ar1, ar2, assume_unique=True)]: [ar1] is not sorted, the
    elements found in [ar2] are masked out of it.  The mask of numpy is
    this one when neither argument has a duplicate, which holds at every
    call of the source ([find_nearest_NoDup] and [expand_seed_NoDup]
    below). *)
Definition setdiff1d (ar1 ar2 : list nat) : list nat :=
  filter (λ a, a ∉ ar2) ar1.

(** [a[None, i]]: row [i] as a 1-row array. *)
Definition np_row (a : ndarray) (i : nat) : result ndarray :=
  match a !! i with
  | Some r => mret [r]
  | None => raise IndexError
  end.

(** ** Python calls *)

(** The arguments a method of the source can receive. *)
Inductive pyobj :=
  | PySelf
  | PyArray (a : ndarray)
  | PyInt (k : Z).

(** Binding of the positional arguments to the parameters, left to right. *)
Fixpoint bind_positional (params : list string) (args : list pyobj)
    (locals : gmap string pyobj) : result (gmap string pyobj) :=
  match args, params with
  | [], _ => mret locals
  | _ :: _, [] => raise (TypeError TooManyPositional)
  | v :: args, p :: params => bind_positional params args (<[p:=v]> locals)
  end.

(** Binding of the keyword arguments: a keyword must name a parameter that
    no positional argument has filled. *)
Fixpoint bind_keywords (params : list string)
    (kwargs : list (string * pyobj)) (locals : gmap string pyobj)
    : result (gmap string pyobj) :=
  match kwargs with
  | [] => mret locals
  | (n, v) :: kwargs =>
      if decide (n ∈ params) then
        match locals !! n with
        | Some _ => raise (TypeError (MultipleValues n))
        | None => bind_keywords params kwargs (<[n:=v]> locals)
        end
      else raise (TypeError (UnexpectedKeyword n))
  end.

(** Every parameter (none of the source has a default) must be bound. *)
Fixpoint check_bound (params : list string) (locals : gmap string pyobj)
    : result unit :=
  match params with
  | [] => mret ()
  | p :: params =>
      match locals !! p with
      | Some _ => check_bound params locals
      | None => raise (TypeError (MissingArgument p))
      end
  end.

Definition bind_args (params : list string) (args : list pyobj)
    (kwargs : list (string * pyobj)) : result (gmap string pyobj) :=
  locals ← bind_positional params args ∅;
  locals ← bind_keywords params kwargs locals;
  _ ← check_bound params locals;
  mret locals.

(** The call [self.f(a, b, K=k)] of a method [f] whose [def] lists [params]
    and whose body reads the locals [x], [y] and [K]: Python passes [self]
    as the first positional argument. *)
Definition call_method {A} (params : list string)
    (body : ndarray → ndarray → Z → result A)
    (a b : ndarray) (k : Z) : result A :=
  locals ← bind_args params [PySelf; PyArray a; PyArray b] [("K", PyInt k)];
  match locals !! "x", locals !! "y", locals !! "K" with
  | Some (PyArray x), Some (PyArray y), Some (PyInt K) => body x y K
  | _, _, _ => raise (TypeError BadOperand)
  end.

(** The keyword options of [recommend], with the defaults of its [def]. *)
Record options := {
  K_use : Z;
  K_mf : Z;
  n_to_recommend : Z;
  use_buffer_multiplier : Z;
  mf_buffer_multiplier : Z
}.

Definition default_options : options :=
  {| K_use := 2; K_mf := 5; n_to_recommend := 5;
     use_buffer_multiplier := 10; mf_buffer_multiplier := 10 |}.

(** ** qrecsys.py *)

Module qrecsys.
Section with_argsort.
Context {sort_kind : ArgSort}.

Record Recommender := {
  encoder : list string → ndarray;
  embeds_mf : ndarray;
  embeds_use : ndarray;
  items : gmap nat (list string);
  interacted_items : gset nat
}.

Definition _find_nearest_params : list string := ["self"; "x"; "y"; "K"].

(** [dists] has one row per row of [x]; [np.argsort(dists)] sorts each row
    in ascending order, [[::-1]] reverses the order of the rows (the first
    axis), and [sorted_items[0]] is then the ascending order of the last
    row of [x]: for the 1-row queries of [recommend], nearest first. *)
Definition _find_nearest (x y : ndarray) (K : Z) : result (list nat) :=
  dists ← euclidean_distances x y;
  let sorted_items := reverse (np_argsort dists) in
  row ← py_getitem0 sorted_items;
  mret (py_slice_to row K).

(** [self._find_nearest(x, y, K=K)] *)
Definition self_find_nearest : ndarray → ndarray → Z → result (list nat) :=
  call_method _find_nearest_params _find_nearest.

(** Steps 1 to 3 of [recommend]: the seed items. *)
Definition seed_items (self : Recommender) (query : string) (o : options)
    : result (list nat) :=
  let encoded_query := encoder self [query] in
  item_ids ← self_find_nearest encoded_query (embeds_use self)
               (K_use o * use_buffer_multiplier o);
  let item_ids := filter (λ item_id, item_id ∈ interacted_items self) item_ids in
  mret (py_slice_to item_ids (K_use o)).

(** The body of the loop of step 4. *)
Definition expand_seed (self : Recommender) (o : options)
    (recs : list nat) (item_id : nat) : result (list nat) :=
  x ← np_row (embeds_mf self) item_id;
  mf_items ← self_find_nearest x (embeds_mf self)
               (K_mf o * mf_buffer_multiplier o);
  let rec := py_slice_to (setdiff1d mf_items recs) (K_mf o) in
  mret (recs ++ rec).

(** Steps 1 to 5: the recommended indices, before they are mapped to
    titles. *)
Definition recommend_indices (self : Recommender) (query : string)
    (o : options) : result (list nat) :=
  item_ids ← seed_items self query o;
  recs ← for_each (expand_seed self o) [] item_ids;
  mret (py_slice_to recs (n_to_recommend o)).

(** [self.items.loc[idx].item()] *)
Definition title_of (self : Recommender) (idx : nat) : result string :=
  match items self !! idx with
  | None => raise KeyError
  | Some [title] => mret title
  | Some _ => raise (ValueError NotScalar)
  end.

Definition recommend (self : Recommender) (query : string) (o : options)
    : result (list string) :=
  recs ← recommend_indices self query o;
  mapM (title_of self) recs.

(** The artifacts as the data model describes them: the encoded query and
    the semantic matrix are non-empty and of one width, the two matrices
    have one row per item, and the catalog gives every item one title. *)
Definition well_formed (self : Recommender) (query : string) : Prop :=
  ¬ is_empty (encoder self [query]) ∧
  ¬ is_empty (embeds_use self) ∧
  ncols (encoder self [query]) = ncols (embeds_use self) ∧
  ¬ is_empty (embeds_mf self) ∧
  rectangular (embeds_mf self) ∧
  nrows (embeds_mf self) = nrows (embeds_use self) ∧
  ∀ idx, (idx < nrows (embeds_mf self))%nat →
         ∃ title, items self !! idx = Some [title].

End with_argsort.
End qrecsys.

(** ** recsys_pipeline.py *)

Module recsys_pipeline.
Section with_argsort.
Context {sort_kind : ArgSort}.

Record Recommender := {
  encoder : list string → ndarray;
  embeds_mf : ndarray;
  embeds_use : ndarray;
  interacted_items : gset nat
}.

(** The [def] inside the class lists no [self] parameter. *)
Definition _find_nearest_params : list string := ["x"; "y"; "K"].

(** [dists] has one row per row of [x]; [np.argsort(dists)] sorts each row
    in ascending order, [[::-1]] reverses the order of the rows (the first
    axis), and [sorted_items[0]] is then the ascending order of the last
    row of [x]: for the 1-row queries of [recommend], nearest first. *)
Definition _find_nearest (x y : ndarray) (K : Z) : result (list nat) :=
  dists ← euclidean_distances x y;
  let sorted_items := reverse (np_argsort dists) in
  row ← py_getitem0 sorted_items;
  mret (py_slice_to row K).

(** [self._find_nearest(x, y, K=K)] *)
Definition self_find_nearest : ndarray → ndarray → Z → result (list nat) :=
  call_method _find_nearest_params _find_nearest.

(** Steps 1 to 3 of [recommend]; the encoder output is passed on as it is,
    without the [.numpy()] of [qrecsys.py]. *)
Definition seed_items (self : Recommender) (query : string) (o : options)
    : result (list nat) :=
  let encoded_query := encoder self [query] in
  item_ids ← self_find_nearest encoded_query (embeds_use self)
               (K_use o * use_buffer_multiplier o);
  let item_ids := filter (λ item_id, item_id ∈ interacted_items self) item_ids in
  mret (py_slice_to item_ids (K_use o)).

(** The body of the loop of step 4. *)
Definition expand_seed (self : Recommender) (o : options)
    (recs : list nat) (item_id : nat) : result (list nat) :=
  x ← np_row (embeds_mf self) item_id;
  mf_items ← self_find_nearest x (embeds_mf self)
               (K_mf o * mf_buffer_multiplier o);
  let rec := py_slice_to (setdiff1d mf_items recs) (K_mf o) in
  mret (recs ++ rec).

Definition recommend (self : Recommender) (query : string) (o : options)
    : result (list nat) :=
  item_ids ← seed_items self query o;
  recs ← for_each (expand_seed self o) [] item_ids;
  mret (py_slice_to recs (n_to_recommend o)).
End with_argsort.
End recsys_pipeline.

(** ** qrecsys.py: [batch] and the data preparation of [preprocess] *)

(** What the data preparation can raise. *)
Inductive preprocess_error :=
  | ZeroDivisionError            (* [len(items) / 0] *)
  | ColumnNotFoundError          (* the exception class of the source *)
  | KeyError_column (name : string) (* pandas: no column of that name *)
  | ValueError_vstack.           (* [np.vstack] of no array, or of arrays
                                    of different widths *)

(** [l[start:stop]]: a negative bound counts from the end, and both bounds
    are clipped to the sequence. *)
Definition py_slice {A} (l : list A) (start stop : Z) : list A :=
  let n := Z.of_nat (length l) in
  let clip i := if decide (i < 0) then Z.max 0 (i + n) else Z.min i n in
  take (Z.to_nat (clip stop - clip start)) (drop (Z.to_nat (clip start)) l).

(** [math.ceil(n / d)] for integers [n] and [d ≠ 0] (lengths are far below
    the 2^53 up to which the float quotient is exact enough). *)
Definition py_ceil_div (n d : Z) : Z := - ((- n) `div` d).

(** [range(n)] *)
Definition py_range (n : Z) : list Z := seqZ 0 n.

Definition batch (items : list string) (batch_size : Z)
    : preprocess_error + list (list string) :=
  if decide (batch_size = 0) then inl ZeroDivisionError
  else
    let num_batches := py_ceil_div (Z.of_nat (length items)) batch_size in
    let batched_items :=
      (λ batch_idx,
         py_slice items (batch_size * batch_idx) (batch_size * (batch_idx + 1)))
      <$> py_range num_batches in
    inr batched_items.

(** [np.vstack(arrays)] of 2-D arrays. *)
Definition np_vstack (arrays : list ndarray) : preprocess_error + ndarray :=
  match arrays with
  | [] => inl ValueError_vstack
  | a :: rest =>
      if decide (Forall (λ b, ncols b = ncols a) rest) then inr (concat arrays)
      else inl ValueError_vstack
  end.

(** The title embeddings of [preprocess] in [qrecsys.py]: the titles are
    encoded in batches of 32 and the batches are stacked.  [model_use] is
    the encoder loaded from TF Hub. *)
Definition embed_titles (model_use : list string → ndarray)
    (titles : list string) : preprocess_error + ndarray :=
  match batch titles 32 with
  | inl e => inl e
  | inr batched_titles =>
      let embeds_use := model_use <$> batched_titles in
      np_vstack embeds_use
  end.

(** The title embeddings of [preprocess] in [recsys_pipeline.py]: one call
    of the encoder on all the titles. *)
Definition embed_titles_pipeline (model_use : list string → ndarray)
    (titles : list string) : ndarray :=
  model_use titles.

(** The first of [keys] that is not a column: the [KeyError] of
    [df.groupby(keys)]. *)
Fixpoint missing_key (columns keys : list string) : option string :=
  match keys with
  | [] => None
  | k :: keys =>
      if decide (k ∈ columns) then missing_key columns keys else Some k
  end.

(** What [preprocess] in [qrecsys.py] asks of the columns of its two
    tables, from the checks after [read_csv] to the [groupby]: the
    interactions table may hold no column besides [interaction], [item] and
    [user], the items table (its index [id] apart) must hold [title], and
    the interactions are grouped by [user] and [item]. *)
Definition preprocess_columns (intxn_columns items_columns : list string)
    : preprocess_error + unit :=
  if decide (list_to_set intxn_columns
             ∖ list_to_set ["interaction"; "item"; "user"]
             ≠ (∅ : gset string))
  then inl ColumnNotFoundError
  else if decide ("title" ∉ items_columns) then inl ColumnNotFoundError
  else match missing_key intxn_columns ["user"; "item"] with
       | Some k => inl (KeyError_column k)
       | None => inr ()
       end.

(** The same for [preprocess] in [recsys_pipeline.py], from its checks to
    the arguments of [csr_matrix], which read the columns [interaction],
    [item] and [user] in that order. *)
Definition preprocess_columns_pipeline
    (intxn_columns items_columns : list string) : preprocess_error + unit :=
  if decide (list_to_set intxn_columns
             ∖ list_to_set ["interaction"; "item"; "user"]
             ≠ (∅ : gset string))
  then inl ColumnNotFoundError
  else if decide ("title" ∉ items_columns) then inl ColumnNotFoundError
  else match missing_key intxn_columns ["interaction"; "item"; "user"] with
       | Some k => inl (KeyError_column k)
       | None => inr ()
       end.

(** ** A six-item catalog

    The scenario of the specification: item 3 is the nearest to the query in
    the semantic space, the interacted items are 1, 3 and 5, and the items
    nearest to item 3 in the collaborative space are 3, 4, 1, 0, 5, 2. *)

Definition demo_use : ndarray := [[5; 0]; [3; 0]; [9; 1]; [0; 0]; [1; 0]; [7; 2]].
Definition demo_mf : ndarray := [[3]; [2]; [5]; [0]; [1]; [4]].

Definition demo_items : gmap nat (list string) :=
  list_to_map [(0%nat, ["Emma"]); (1%nat, ["Ulysses"]); (2%nat, ["Walden"]);
               (3%nat, ["Dune"]); (4%nat, ["Solaris"]); (5%nat, ["Kim"])].

Definition demo : qrecsys.Recommender := {|
  qrecsys.encoder := fmap (λ _, [0; 0]);
  qrecsys.embeds_mf := demo_mf;
  qrecsys.embeds_use := demo_use;
  qrecsys.items := demo_items;
  qrecsys.interacted_items := {[1%nat; 3%nat; 5%nat]}
|}.

(** The same catalog with another edition of "Dune" as item 4. *)
Definition demo_two_editions : qrecsys.Recommender := {|
  qrecsys.encoder := fmap (λ _, [0; 0]);
  qrecsys.embeds_mf := demo_mf;
  qrecsys.embeds_use := demo_use;
  qrecsys.items := <[4%nat := ["Dune"]]> demo_items;
  qrecsys.interacted_items := {[1%nat; 3%nat; 5%nat]}
|}.

(** No recorded interaction. *)
Definition demo_cold : qrecsys.Recommender := {|
  qrecsys.encoder := fmap (λ _, [0; 0]);
  qrecsys.embeds_mf := demo_mf;
  qrecsys.embeds_use := demo_use;
  qrecsys.items := demo_items;
  qrecsys.interacted_items := ∅
|}.

(** An encoder of width 3 in front of a semantic matrix of width 2. *)
Definition demo_wide : qrecsys.Recommender := {|
  qrecsys.encoder := fmap (λ _, [0; 0; 0]);
  qrecsys.embeds_mf := demo_mf;
  qrecsys.embeds_use := demo_use;
  qrecsys.items := demo_items;
  qrecsys.interacted_items := {[1%nat; 3%nat; 5%nat]}
|}.

Definition demo_pipeline : recsys_pipeline.Recommender := {|
  recsys_pipeline.encoder := fmap (λ _, [0; 0]);
  recsys_pipeline.embeds_mf := demo_mf;
  recsys_pipeline.embeds_use := demo_use;
  recsys_pipeline.interacted_items := {[1%nat; 3%nat; 5%nat]}
|}.

(** Collaborative factors for the items 0 and 1 only. *)
Definition demo_two_factors : qrecsys.Recommender := {|
  qrecsys.encoder := fmap (λ _, [0; 0]);
  qrecsys.embeds_mf := [[3]; [2]];
  qrecsys.embeds_use := demo_use;
  qrecsys.items := demo_items;
  qrecsys.interacted_items := {[1%nat; 3%nat; 5%nat]}
|}.

(** Collaborative factors for the items 0 to 3, which cover the interacted
    items 1 and 3. *)
Definition demo_four_factors : qrecsys.Recommender := {|
  qrecsys.encoder := fmap (λ _, [0; 0]);
  qrecsys.embeds_mf := [[3]; [2]; [5]; [0]];
  qrecsys.embeds_use := demo_use;
  qrecsys.items := demo_items;
  qrecsys.interacted_items := {[1%nat; 3%nat]}
|}.

(** The catalog without its item 4. *)
Definition demo_no_solaris : qrecsys.Recommender := {|
  qrecsys.encoder := fmap (λ _, [0; 0]);
  qrecsys.embeds_mf := demo_mf;
  qrecsys.embeds_use := demo_use;
  qrecsys.items := delete 4%nat demo_items;
  qrecsys.interacted_items := {[1%nat; 3%nat; 5%nat]}
|}.

(** An encoder that embeds a title as its length, and 40 titles. *)
Definition demo_model_use : list string → ndarray :=
  fmap (λ title, [Z.of_nat (String.length title)]).
Definition demo_titles : list string :=
  replicate 33 "Dune" ++ replicate 7 "Solaris".

Definition demo_options : options :=
  {| K_use := 1; K_mf := 2; n_to_recommend := 5;
     use_buffer_multiplier := 1; mf_buffer_multiplier := 1 |}.

Definition demo_options_zero : options :=
  {| K_use := 0; K_mf := 2; n_to_recommend := 5;
     use_buffer_multiplier := 1; mf_buffer_multiplier := 1 |}.

Definition demo_options_negative : options :=
  {| K_use := -2; K_mf := -1; n_to_recommend := -1;
     use_buffer_multiplier := 3; mf_buffer_multiplier := -1 |}.

(** ** Two implementations of [np.argsort] *)

Global Instance stable_le_dec d i j : Decision (stable_le d i j).
Proof. unfold stable_le. apply _. Defined.
Global Instance unstable_le_dec d i j : Decision (unstable_le d i j).
Proof. unfold unstable_le. apply _. Defined.

Global Instance stable_le_total d : Total (stable_le d).
Proof. intros i j. unfold stable_le. lia. Qed.
Global Instance stable_le_trans d : Transitive (stable_le d).
Proof. intros i j k. unfold stable_le. lia. Qed.
Global Instance unstable_le_total d : Total (unstable_le d).
Proof. intros i j. unfold unstable_le. lia. Qed.
Global Instance unstable_le_trans d : Transitive (unstable_le d).
Proof. intros i j k. unfold unstable_le. lia. Qed.

Lemma StronglySorted_weaken {A} (R1 R2 : relation A) (l : list A) :
  (∀ a b, R1 a b → R2 a b) → StronglySorted R1 l → StronglySorted R2 l.
Proof.
  intros HR. induction 1 as [|a l Hl IH Ha]; constructor; [done|].
  eapply Forall_impl; [exact Ha|]. auto.
Qed.

Lemma stable_le_key d i j : stable_le d i j → key d i ≤ key d j.
Proof. unfold stable_le. lia. Qed.

Definition stable_argsort (d : list Z) : list nat :=
  merge_sort (stable_le d) (seq 0 (length d)).

Lemma stable_argsort_sorted d : StronglySorted (stable_le d) (stable_argsort d).
Proof. apply StronglySorted_merge_sort; apply _. Qed.

Definition np_stable : ArgSort := {|
  argsort := stable_argsort;
  argsort_perm d := merge_sort_Permutation (stable_le d) (seq 0 (length d));
  argsort_sorted d :=
    StronglySorted_weaken _ _ _ (stable_le_key d) (stable_argsort_sorted d)
|}.


(** * Properties *)

(** ** The [result] monad and Python slices *)

Lemma bind_inr {A B} (f : A → result B) (m : result A) (b : B) :
  m ≫= f = inr b ↔ ∃ a, m = inr a ∧ f a = inr b.
Proof.
  unfold mbind, result_bind. destruct m as [e|a]; split.
  - discriminate.
  - intros (a & Ha & _). discriminate.
  - eauto.
  - intros (a' & [= <-] & Hf). exact Hf.
Qed.

Lemma bind_inl {A B} (f : A → result B) (m : result A) (e : exn) :
  m ≫= f = inl e ↔ m = inl e ∨ ∃ a, m = inr a ∧ f a = inl e.
Proof.
  unfold mbind, result_bind. destruct m as [e'|a]; split.
  - intros [= ->]. by left.
  - intros [[= ->]|(a & Ha & _)]; [done|discriminate].
  - intros Hf. right. eauto.
  - intros [?|(a' & [= <-] & Hf)]; [discriminate|exact Hf].
Qed.

Lemma py_slice_to_nonneg {A} (l : list A) (K : Z) :
  0 ≤ K → py_slice_to l K = take (Z.to_nat K) l.
Proof. intros HK. unfold py_slice_to. by rewrite decide_True. Qed.

Lemma py_slice_to_neg {A} (l : list A) (K : Z) :
  K < 0 → py_slice_to l K = take (length l - Z.to_nat (- K)) l.
Proof. intros HK. unfold py_slice_to. rewrite decide_False; [done|lia]. Qed.

Lemma py_slice_to_take {A} (l : list A) (K : Z) :
  ∃ n, py_slice_to l K = take n l.
Proof. unfold py_slice_to. case_decide; eauto. Qed.

Lemma py_slice_to_sublist {A} (l : list A) (K : Z) :
  py_slice_to l K `sublist_of` l.
Proof. destruct (py_slice_to_take l K) as [n ->]. apply sublist_take. Qed.

Lemma py_slice_to_nil {A} (K : Z) : py_slice_to (@nil A) K = [].
Proof. destruct (py_slice_to_take (@nil A) K) as [n ->]. by destruct n. Qed.

Lemma py_slice_to_0 {A} (l : list A) : py_slice_to l 0 = [].
Proof. by rewrite py_slice_to_nonneg. Qed.

Lemma mapM_inr {A B} (f : A → result B) (l : list A) (k : list B) :
  mapM f l = inr k ↔ Forall2 (λ a b, f a = inr b) l k.
Proof.
  revert k. induction l as [|a l IH]; intros k; simpl.
  - split.
    + intros [= <-]. constructor.
    + by intros ->%Forall2_nil_inv_l.
  - rewrite bind_inr. split.
    + intros (b & Hb & Hk). apply bind_inr in Hk as (k' & Hk' & [= <-]).
      constructor; [done|]. by apply IH.
    + intros (b & k' & Hb & Hk' & ->)%Forall2_cons_inv_l.
      exists b. split; [done|]. apply bind_inr. exists k'.
      split; [by apply IH|done].
Qed.

Lemma filter_elem_of_empty (X : gset nat) (l : list nat) :
  X = ∅ → filter (λ i, i ∈ X) l = [].
Proof.
  intros ->. induction l as [|i l IH]; [done|].
  rewrite filter_cons_False; [done|]. apply not_elem_of_empty.
Qed.

Lemma for_each_inv {S A} (P : S → Prop) (body : S → A → result S)
    (l : list A) (s s' : S) :
  (∀ s a s', a ∈ l → P s → body s a = inr s' → P s') →
  P s → for_each body s l = inr s' → P s'.
Proof.
  revert s. induction l as [|a l IH]; intros s Hbody Hs; simpl.
  - by intros [= <-].
  - intros (s1 & H1 & Hl)%bind_inr. apply (IH s1); [|eapply Hbody; [left|done..]|done].
    intros s2 b s3 Hb. apply Hbody. by right.
Qed.

Lemma for_each_total {S A} (P : S → Prop) (body : S → A → result S)
    (l : list A) (s : S) :
  (∀ s a, a ∈ l → P s → ∃ s', body s a = inr s' ∧ P s') →
  P s → ∃ s', for_each body s l = inr s' ∧ P s'.
Proof.
  revert s. induction l as [|a l IH]; intros s Hbody Hs; simpl.
  - by exists s.
  - destruct (Hbody s a) as (s1 & H1 & Hs1); [left|done|].
    destruct (IH s1) as (s' & Hs' & HP); [|done|].
    { intros s2 b Hb. apply Hbody. by right. }
    exists s'. split; [|done]. apply bind_inr. eauto.
Qed.

Lemma mapM_total {A B} (f : A → result B) (l : list A) :
  (∀ a, a ∈ l → ∃ b, f a = inr b) → ∃ k, mapM f l = inr k.
Proof.
  induction l as [|a l IH]; intros Hf; simpl.
  - by exists [].
  - destruct (Hf a) as [b Hb]; [left|].
    destruct IH as [k Hk]. { intros a' Ha'. apply Hf. by right. }
    exists (b :: k). apply bind_inr. exists b. split; [done|].
    apply bind_inr. by exists k.
Qed.

(** ** Sorted lists *)



(** ** numpy and scikit-learn *)

Lemma check_array_inr (a : ndarray) : ¬ is_empty a → check_array a = inr ().
Proof.
  unfold is_empty, check_array. intros Ha.
  rewrite !decide_False; [done|tauto..].
Qed.

Lemma check_array_inl (a : ndarray) (e : exn) :
  check_array a = inl e → is_empty a ∧ ∃ why, e = ValueError why.
Proof.
  unfold is_empty, check_array. repeat case_decide; intros [= <-]; eauto.
Qed.

Lemma euclidean_distances_inr (X Y : ndarray) :
  ¬ is_empty X → ¬ is_empty Y → ncols X = ncols Y →
  euclidean_distances X Y = inr ((λ x, sqdist x <$> Y) <$> X).
Proof.
  intros HX HY Hc. unfold euclidean_distances.
  rewrite !check_array_inr by done. simpl. by rewrite decide_True.
Qed.

Lemma euclidean_distances_inl (X Y : ndarray) (e : exn) :
  euclidean_distances X Y = inl e →
  (is_empty X ∨ is_empty Y ∨ ncols X ≠ ncols Y) ∧ ∃ why, e = ValueError why.
Proof.
  unfold euclidean_distances. intros [HX|(_ & _ & He)]%bind_inl.
  { apply check_array_inl in HX as [HX Hw]. split; [by left|done]. }
  apply bind_inl in He as [HY|(_ & _ & He)].
  { apply check_array_inl in HY as [HY Hw]. split; [by right; left|done]. }
  case_decide; [discriminate|]. injection He as <-. eauto.
Qed.

Lemma euclidean_distances_mismatch (X Y : ndarray) :
  ncols X ≠ ncols Y → ∃ why, euclidean_distances X Y = inl (ValueError why).
Proof.
  intros Hc. destruct (euclidean_distances X Y) as [e|d] eqn:Hd.
  - apply euclidean_distances_inl in Hd as (_ & why & ->). eauto.
  - unfold euclidean_distances in Hd.
    apply bind_inr in Hd as (_ & _ & Hd). apply bind_inr in Hd as (_ & _ & Hd).
    by rewrite decide_False in Hd.
Qed.

Section argsort_facts.
Context {sort_kind : ArgSort}.

Lemma argsort_length (d : list Z) : length (argsort d) = length d.
Proof. by rewrite (argsort_perm d), length_seq. Qed.

Lemma argsort_NoDup (d : list Z) : NoDup (argsort d).
Proof. rewrite (argsort_perm d). apply NoDup_seq. Qed.

Lemma argsort_elem_of (d : list Z) (i : nat) :
  i ∈ argsort d ↔ (i < length d)%nat.
Proof. rewrite (argsort_perm d), elem_of_seq. lia. Qed.


End argsort_facts.

(** ** [_find_nearest] *)

Section finder.
Context {sort_kind : ArgSort}.

Lemma pipeline_find_nearest_eq :
  recsys_pipeline._find_nearest = qrecsys._find_nearest.
Proof. reflexivity. Qed.

(** The slice [[::-1]] reverses the rows of the argsort, not the order
    inside a row: the row read by [[0]] is the ascending order for the last
    row of [x]. *)
Lemma find_nearest_inr (xs : ndarray) (q : list Z) (y : ndarray) (K : Z) :
  ¬ is_empty (xs ++ [q]) → ¬ is_empty y → ncols (xs ++ [q]) = ncols y →
  qrecsys._find_nearest (xs ++ [q]) y K
  = inr (py_slice_to (argsort (sqdist q <$> y)) K).
Proof.
  intros Hx Hy Hc. unfold qrecsys._find_nearest.
  rewrite euclidean_distances_inr by done. simpl.
  unfold np_argsort. rewrite !fmap_app, reverse_app. done.
Qed.

Lemma find_nearest_single (q : list Z) (y : ndarray) (K : Z) :
  q ≠ [] → y ≠ [] → ncols y = length q →
  qrecsys._find_nearest [q] y K
  = inr (py_slice_to (argsort (sqdist q <$> y)) K).
Proof.
  intros Hq Hy Hc. apply (find_nearest_inr []); simpl.
  - unfold is_empty. simpl. intros [?|?%length_zero_iff_nil]; done.
  - unfold is_empty, nrows. rewrite Hc.
    intros [?%length_zero_iff_nil|?%length_zero_iff_nil]; done.
  - done.
Qed.

Lemma find_nearest_inl (x y : ndarray) (K : Z) (e : exn) :
  qrecsys._find_nearest x y K = inl e →
  (is_empty x ∨ is_empty y ∨ ncols x ≠ ncols y) ∧ ∃ why, e = ValueError why.
Proof.
  unfold qrecsys._find_nearest. intros [Hd|(d & Hd & He)]%bind_inl.
  { by apply euclidean_distances_inl in Hd. }
  exfalso. destruct x as [|x0 x] using rev_ind.
  { unfold euclidean_distances in Hd. discriminate. }
  unfold euclidean_distances in Hd.
  apply bind_inr in Hd as (_ & _ & Hd). apply bind_inr in Hd as (_ & _ & Hd).
  case_decide; [|discriminate]. injection Hd as <-.
  unfold np_argsort in He. rewrite !fmap_app, reverse_app in He. done.
Qed.

Lemma find_nearest_raises_iff (x y : ndarray) (K : Z) :
  raises (qrecsys._find_nearest x y K)
  ↔ is_empty x ∨ is_empty y ∨ ncols x ≠ ncols y.
Proof.
  split.
  - intros [e He]. by apply find_nearest_inl in He as [? _].
  - intros Hbad. destruct (qrecsys._find_nearest x y K) as [e|r] eqn:Hr.
    { by exists e. }
    exfalso. unfold qrecsys._find_nearest in Hr.
    apply bind_inr in Hr as (d & Hd & _).
    unfold euclidean_distances in Hd.
    apply bind_inr in Hd as ([] & Hx & Hd). apply bind_inr in Hd as ([] & Hy & Hd).
    case_decide; [|discriminate].
    unfold check_array, is_empty in *. repeat case_decide; try discriminate.
    tauto.
Qed.


(** C2: for a non-negative [K], [_find_nearest] returns exactly
    [min K N] indices, all below [N] and pairwise distinct; a [K] above [N]
    is clamped to [N] and raises nothing. *)
Theorem find_nearest_size (q : list Z) (y : ndarray) (K : Z) :
  q ≠ [] → y ≠ [] → ncols y = length q → 0 ≤ K →
  ∃ r, qrecsys._find_nearest [q] y K = inr r ∧
       length r = Nat.min (Z.to_nat K) (nrows y) ∧
       Forall (λ i, (i < nrows y)%nat) r ∧
       NoDup r ∧
       (Z.of_nat (nrows y) < K → length r = nrows y).
Proof.
  intros Hq Hy Hc HK. eexists. split; [by apply find_nearest_single|].
  rewrite py_slice_to_nonneg by done. unfold nrows.
  assert (Hlen : length (take (Z.to_nat K) (argsort (sqdist q <$> y)))
                 = Nat.min (Z.to_nat K) (length y)).
  { by rewrite length_take, argsort_length, length_fmap. }
  split; [done|]. split; [|split].
  - apply Forall_forall. intros i Hi.
    eapply elem_of_sublist in Hi; [|apply sublist_take].
    apply argsort_elem_of in Hi. by rewrite length_fmap in Hi.
  - eapply sublist_NoDup; [apply argsort_NoDup|apply sublist_take].
  - rewrite Hlen. lia.
Qed.



(** The method call of [qrecsys.py] binds its arguments and runs the body. *)
Lemma self_find_nearest_eq (x y : ndarray) (K : Z) :
  qrecsys.self_find_nearest x y K = qrecsys._find_nearest x y K.
Proof. reflexivity. Qed.

(** The method call of [recsys_pipeline.py] does not reach the body: [self]
    fills [x], the two arrays fill [y] and [K], and the keyword [K] finds
    its parameter taken. *)
Lemma pipeline_self_find_nearest (x y : ndarray) (K : Z) :
  recsys_pipeline.self_find_nearest x y K
  = inl (TypeError (MultipleValues "K")).
Proof. reflexivity. Qed.

End finder.

(** ** [recommend] *)

Section recommender.
Context {sort_kind : ArgSort}.

Lemma find_nearest_inr_inv (x y : ndarray) (K : Z) (r : list nat) :
  qrecsys._find_nearest x y K = inr r →
  ∃ q, last x = Some q ∧ r = py_slice_to (argsort (sqdist q <$> y)) K.
Proof.
  unfold qrecsys._find_nearest. intros (d & Hd & Hr)%bind_inr.
  apply bind_inr in Hr as (row & Hrow & [= <-]).
  unfold euclidean_distances in Hd.
  apply bind_inr in Hd as (_ & _ & Hd). apply bind_inr in Hd as (_ & _ & Hd).
  case_decide; [|discriminate]. injection Hd as <-.
  destruct x as [|q x _] using rev_ind; [discriminate|].
  exists q. split; [apply last_snoc|].
  unfold np_argsort in Hrow. rewrite !fmap_app, reverse_app in Hrow.
  by injection Hrow as <-.
Qed.

Lemma find_nearest_NoDup (x y : ndarray) (K : Z) (r : list nat) :
  qrecsys._find_nearest x y K = inr r → NoDup r.
Proof.
  intros (q & _ & ->)%find_nearest_inr_inv.
  eapply sublist_NoDup; [apply argsort_NoDup|apply py_slice_to_sublist].
Qed.

Lemma find_nearest_bound (x y : ndarray) (K : Z) (r : list nat) :
  qrecsys._find_nearest x y K = inr r → Forall (λ i, (i < nrows y)%nat) r.
Proof.
  intros (q & _ & ->)%find_nearest_inr_inv. apply Forall_forall. intros i Hi.
  eapply elem_of_sublist in Hi; [|apply py_slice_to_sublist].
  apply argsort_elem_of in Hi. by rewrite length_fmap in Hi.
Qed.

Lemma seed_items_inv (self : qrecsys.Recommender) (query : string)
    (o : options) (seeds : list nat) :
  qrecsys.seed_items self query o = inr seeds →
  ∃ item_ids,
    qrecsys._find_nearest (qrecsys.encoder self [query])
      (qrecsys.embeds_use self) (K_use o * use_buffer_multiplier o)
    = inr item_ids ∧
    seeds = py_slice_to
              (filter (λ i, i ∈ qrecsys.interacted_items self) item_ids)
              (K_use o).
Proof.
  unfold qrecsys.seed_items. rewrite self_find_nearest_eq.
  intros (item_ids & Hr & [= <-])%bind_inr. eauto.
Qed.

Lemma seed_items_bound (self : qrecsys.Recommender) (query : string)
    (o : options) (seeds : list nat) :
  qrecsys.seed_items self query o = inr seeds →
  Forall (λ i, (i < nrows (qrecsys.embeds_use self))%nat) seeds.
Proof.
  intros (item_ids & Hr & ->)%seed_items_inv.
  apply find_nearest_bound in Hr. apply Forall_forall. intros i Hi.
  eapply elem_of_sublist in Hi; [|apply py_slice_to_sublist].
  apply list_elem_of_filter in Hi as [_ Hi].
  by eapply Forall_forall in Hr.
Qed.

Lemma expand_seed_inv (self : qrecsys.Recommender) (o : options)
    (recs recs' : list nat) (item_id : nat) :
  qrecsys.expand_seed self o recs item_id = inr recs' →
  ∃ row mf_items,
    qrecsys.embeds_mf self !! item_id = Some row ∧
    qrecsys._find_nearest [row] (qrecsys.embeds_mf self)
      (K_mf o * mf_buffer_multiplier o) = inr mf_items ∧
    recs' = recs ++ py_slice_to (setdiff1d mf_items recs) (K_mf o).
Proof.
  unfold qrecsys.expand_seed, np_row. rewrite bind_inr.
  intros (x & Hx & Hr). destruct (_ !! item_id) as [row|] eqn:Hrow; [|discriminate].
  injection Hx as <-. rewrite self_find_nearest_eq in Hr.
  apply bind_inr in Hr as (mf_items & Hmf & [= <-]). eauto 6.
Qed.

Lemma expand_seed_NoDup (self : qrecsys.Recommender) (o : options)
    (recs recs' : list nat) (item_id : nat) :
  NoDup recs → qrecsys.expand_seed self o recs item_id = inr recs' →
  NoDup recs'.
Proof.
  intros Hrecs (row & mf_items & _ & Hmf & ->)%expand_seed_inv.
  apply NoDup_app. split; [done|]. split.
  - intros i Hi Hi'. eapply elem_of_sublist in Hi'; [|apply py_slice_to_sublist].
    unfold setdiff1d in Hi'. by apply list_elem_of_filter in Hi' as [? _].
  - eapply sublist_NoDup; [|apply py_slice_to_sublist].
    apply NoDup_filter. by eapply find_nearest_NoDup.
Qed.

Lemma expand_seed_bound (self : qrecsys.Recommender) (o : options)
    (recs recs' : list nat) (item_id : nat) :
  Forall (λ i, (i < nrows (qrecsys.embeds_mf self))%nat) recs →
  qrecsys.expand_seed self o recs item_id = inr recs' →
  Forall (λ i, (i < nrows (qrecsys.embeds_mf self))%nat) recs'.
Proof.
  intros Hrecs (row & mf_items & _ & Hmf & ->)%expand_seed_inv.
  apply Forall_app. split; [done|]. apply find_nearest_bound in Hmf.
  apply Forall_forall. intros i Hi.
  eapply elem_of_sublist in Hi; [|apply py_slice_to_sublist].
  unfold setdiff1d in Hi. apply list_elem_of_filter in Hi as [_ Hi].
  by eapply Forall_forall in Hmf.
Qed.

Lemma expand_seed_inr (self : qrecsys.Recommender) (o : options)
    (recs : list nat) (item_id : nat) (row : list Z) :
  qrecsys.embeds_mf self !! item_id = Some row →
  row ≠ [] → ncols (qrecsys.embeds_mf self) = length row →
  qrecsys.expand_seed self o recs item_id
  = inr (recs ++ py_slice_to
           (setdiff1d
              (py_slice_to (argsort (sqdist row <$> qrecsys.embeds_mf self))
                 (K_mf o * mf_buffer_multiplier o)) recs) (K_mf o)).
Proof.
  intros Hrow Hne Hc. unfold qrecsys.expand_seed, np_row. rewrite Hrow. simpl.
  rewrite self_find_nearest_eq, find_nearest_single; [done..| |done].
  intros Hnil. by rewrite Hnil in Hrow.
Qed.

Lemma title_of_inr (self : qrecsys.Recommender) (idx : nat) (title : string) :
  qrecsys.title_of self idx = inr title
  ↔ qrecsys.items self !! idx = Some [title].
Proof.
  unfold qrecsys.title_of.
  destruct (_ !! idx) as [[|t [|t' row]]|]; split; try discriminate.
  - by intros [= ->].
  - by intros [= ->].
Qed.

Lemma Forall2_NoDup_inj {A B} (R : A → B → Prop) (l : list A) (k : list B) :
  Forall2 R l k → NoDup l →
  (∀ a a' b, a ∈ l → a' ∈ l → R a b → R a' b → a = a') →
  NoDup k.
Proof.
  induction 1 as [|a b l k Hab Hlk IH]; intros Hl Hinj; [constructor|].
  apply NoDup_cons in Hl as [Ha Hl]. apply NoDup_cons. split.
  - intros (p & Hp)%list_elem_of_lookup_1.
    destruct (Forall2_lookup_r _ _ _ _ _ Hlk Hp) as (a' & Ha' & Ha'b).
    apply list_elem_of_lookup_2 in Ha'.
    assert (a = a') as <-; [|done].
    apply (Hinj a a' b); [left|by right|done..].
  - apply IH; [done|]. intros a1 a2 b' H1 H2. apply Hinj; by right.
Qed.

Lemma find_nearest_mismatch (x y : ndarray) (K : Z) :
  ncols x ≠ ncols y →
  ∃ why, qrecsys._find_nearest x y K = inl (ValueError why) ∧
         (¬ is_empty x → ¬ is_empty y → why = IncompatibleDimension).
Proof.
  intros Hc. destruct (euclidean_distances_mismatch x y Hc) as [why Hwhy].
  exists why. split.
  - unfold qrecsys._find_nearest. by rewrite Hwhy.
  - intros Hx Hy. unfold euclidean_distances in Hwhy.
    rewrite !check_array_inr in Hwhy by done. simpl in Hwhy.
    rewrite decide_False in Hwhy by done. by injection Hwhy as <-.
Qed.

(** C5, as amended: for a non-negative [n_to_recommend], the list returned
    by [recommend] has length at most [n_to_recommend] and gives, in order,
    the titles of a prefix of the list accumulated by the loop; that list of
    indices has no duplicate, and the titles have none whenever the catalog
    gives distinct titles to the accumulated indices. *)
Theorem recommend_bounded_distinct (self : qrecsys.Recommender)
    (query : string) (o : options) (titles : list string) :
  0 ≤ n_to_recommend o →
  qrecsys.recommend self query o = inr titles →
  ∃ seeds acc,
    qrecsys.seed_items self query o = inr seeds ∧
    for_each (qrecsys.expand_seed self o) [] seeds = inr acc ∧
    NoDup acc ∧
    qrecsys.recommend_indices self query o
    = inr (take (Z.to_nat (n_to_recommend o)) acc) ∧
    Forall2 (λ idx title, qrecsys.items self !! idx = Some [title])
      (take (Z.to_nat (n_to_recommend o)) acc) titles ∧
    (length titles ≤ Z.to_nat (n_to_recommend o))%nat ∧
    ((∀ i j title, i ∈ acc → j ∈ acc →
        qrecsys.items self !! i = Some [title] →
        qrecsys.items self !! j = Some [title] → i = j) →
     NoDup titles).
Proof.
  intros Hn. unfold qrecsys.recommend.
  intros (recs & Hrecs & Htitles)%bind_inr.
  pose proof Hrecs as Hidx. unfold qrecsys.recommend_indices in Hrecs.
  apply bind_inr in Hrecs as (seeds & Hseeds & Hrecs).
  apply bind_inr in Hrecs as (acc & Hacc & [= <-]).
  rewrite py_slice_to_nonneg in * by done.
  assert (NoDup acc) as Hnodup.
  { eapply (for_each_inv NoDup); [|apply NoDup_nil_2|exact Hacc].
    intros recs a recs' _. apply expand_seed_NoDup. }
  apply mapM_inr in Htitles.
  assert (Forall2 (λ idx title, qrecsys.items self !! idx = Some [title])
            (take (Z.to_nat (n_to_recommend o)) acc) titles) as Hcat.
  { eapply Forall2_impl; [exact Htitles|]. intros idx t. by rewrite title_of_inr. }
  exists seeds, acc. repeat split; try done.
  - rewrite <- (Forall2_length _ _ _ Hcat), length_take. lia.
  - intros Hinj. eapply Forall2_NoDup_inj; [exact Hcat| |].
    + eapply sublist_NoDup; [done|apply sublist_take].
    + intros i j t Hi Hj. apply Hinj; eapply elem_of_sublist; eauto using sublist_take.
Qed.

(** C6: when no item has been interacted with (and the encoded query and
    the semantic matrix are non-empty and of one width), the seed list is
    empty and [recommend] returns the empty list. *)
Theorem recommend_no_interactions (self : qrecsys.Recommender)
    (query : string) (o : options) :
  qrecsys.interacted_items self = ∅ →
  ¬ is_empty (qrecsys.encoder self [query]) →
  ¬ is_empty (qrecsys.embeds_use self) →
  ncols (qrecsys.encoder self [query]) = ncols (qrecsys.embeds_use self) →
  qrecsys.seed_items self query o = inr [] ∧
  qrecsys.recommend self query o = inr [].
Proof.
  intros Hset Hx Hy Hc.
  assert (qrecsys.seed_items self query o = inr []) as Hseeds.
  { unfold qrecsys.seed_items. rewrite self_find_nearest_eq.
    destruct (qrecsys._find_nearest _ _ _) as [e|item_ids] eqn:Hr.
    { assert (raises (qrecsys._find_nearest (qrecsys.encoder self [query])
                (qrecsys.embeds_use self) (K_use o * use_buffer_multiplier o)))
        as Hraise by (by exists e).
      apply find_nearest_raises_iff in Hraise. tauto. }
    simpl. rewrite (filter_elem_of_empty _ _ Hset). by rewrite py_slice_to_nil. }
  split; [done|].
  unfold qrecsys.recommend, qrecsys.recommend_indices. rewrite Hseeds. simpl.
  by rewrite py_slice_to_nil.
Qed.


(** C8, as amended: [recommend] does not validate its options; on
    well-formed artifacts it returns a list for every value of the five
    options, zero and negative values included. *)
Theorem recommend_total (self : qrecsys.Recommender) (query : string)
    (o : options) :
  qrecsys.well_formed self query →
  ∃ titles, qrecsys.recommend self query o = inr titles.
Proof.
  intros (Hx & Hy & Hc & Hmf & Hrect & Hrows & Hcat).
  destruct (qrecsys.seed_items self query o) as [e|seeds] eqn:Hseeds.
  { exfalso. unfold qrecsys.seed_items in Hseeds.
    rewrite self_find_nearest_eq in Hseeds.
    apply bind_inl in Hseeds as [He|(? & _ & ?)]; [|discriminate].
    assert (raises (qrecsys._find_nearest (qrecsys.encoder self [query])
              (qrecsys.embeds_use self) (K_use o * use_buffer_multiplier o)))
      as Hraise by (by exists e).
    apply find_nearest_raises_iff in Hraise. tauto. }
  pose proof (seed_items_bound _ _ _ _ Hseeds) as Hbound.
  rewrite <- Hrows in Hbound.
  destruct (for_each_total
              (Forall (λ i, (i < nrows (qrecsys.embeds_mf self))%nat))
              (qrecsys.expand_seed self o) seeds [])
    as (acc & Hacc & Hacc_bound); [|constructor|].
  { intros recs s Hs Hrecs.
    eapply Forall_forall in Hbound; [|exact Hs].
    apply lookup_lt_is_Some_2 in Hbound as [row Hrow].
    assert (length row = ncols (qrecsys.embeds_mf self)) as Hlen.
    { eapply Forall_forall in Hrect; [exact Hrect|].
      by eapply list_elem_of_lookup_2. }
    assert (row ≠ []) as Hne.
    { intros ->. apply Hmf. right. by rewrite <- Hlen. }
    eexists. split; [by apply (expand_seed_inr _ _ _ _ row)|].
    eapply expand_seed_bound; [exact Hrecs|].
    by apply (expand_seed_inr _ _ _ _ row). }
  destruct (mapM_total (qrecsys.title_of self)
              (py_slice_to acc (n_to_recommend o))) as [titles Htitles].
  { intros idx Hidx. eapply elem_of_sublist in Hidx; [|apply py_slice_to_sublist].
    eapply Forall_forall in Hacc_bound; [|exact Hidx].
    destruct (Hcat idx Hacc_bound) as [title Htitle].
    exists title. by apply title_of_inr. }
  exists titles. unfold qrecsys.recommend, qrecsys.recommend_indices.
  rewrite Hseeds. simpl. rewrite Hacc. simpl. exact Htitles.
Qed.

(** C9: when the width of the encoded query differs from the row width of
    the semantic matrix, [recommend] raises the [ValueError] of
    scikit-learn (for incompatible dimensions when neither array is empty)
    and returns no list: the query is neither truncated nor padded. *)
Theorem recommend_dimension_mismatch (self : qrecsys.Recommender)
    (query : string) (o : options) :
  ncols (qrecsys.encoder self [query]) ≠ ncols (qrecsys.embeds_use self) →
  ∃ why, qrecsys.recommend self query o = inl (ValueError why) ∧
         (¬ is_empty (qrecsys.encoder self [query]) →
          ¬ is_empty (qrecsys.embeds_use self) →
          why = IncompatibleDimension).
Proof.
  intros Hc.
  destruct (find_nearest_mismatch _ _ (K_use o * use_buffer_multiplier o) Hc)
    as (why & Hwhy & Hkind).
  exists why. split; [|done].
  unfold qrecsys.recommend, qrecsys.recommend_indices, qrecsys.seed_items.
  rewrite self_find_nearest_eq, Hwhy. done.
Qed.

End recommender.

(** ** The catalog of six items *)

Example scenario_seed_items :
  @qrecsys.seed_items np_stable demo "dune" demo_options = inr [3%nat].
Proof. vm_compute. reflexivity. Qed.

Example scenario_recommend_indices :
  @qrecsys.recommend_indices np_stable demo "dune" demo_options
  = inr [3%nat; 4%nat].
Proof. vm_compute. reflexivity. Qed.

Example scenario_recommend :
  @qrecsys.recommend np_stable demo "dune" demo_options
  = inr ["Dune"; "Solaris"].
Proof. vm_compute. reflexivity. Qed.

Example scenario_default_options :
  @qrecsys.recommend np_stable demo "dune" default_options
  = inr ["Dune"; "Solaris"; "Ulysses"; "Emma"; "Kim"].
Proof. vm_compute. reflexivity. Qed.


Lemma find_nearest_size_witness :
  ∃ r, @qrecsys._find_nearest np_stable [[0; 0]] demo_use 20 = inr r ∧
       length r = Nat.min (Z.to_nat 20) (nrows demo_use) ∧
       Forall (λ i, (i < nrows demo_use)%nat) r ∧
       NoDup r ∧
       (Z.of_nat (nrows demo_use) < 20 → length r = nrows demo_use).
Proof.
  apply (@find_nearest_size np_stable [0; 0] demo_use 20);
    [discriminate|discriminate|reflexivity|lia].
Defined.




(** C5 fails as stated: with positive options, two items of one title are
    both recommended. *)
Lemma recommend_repeats_title :
  ∃ titles,
    @qrecsys.recommend np_stable demo_two_editions "dune" demo_options
    = inr titles ∧ ¬ NoDup titles.
Proof.
  exists ["Dune"; "Dune"]. split; [vm_compute; reflexivity|].
  intros Hnodup. apply NoDup_cons in Hnodup as [Hin _]. apply Hin. left.
Qed.

Lemma recommend_bounded_distinct_witness :
  ∃ seeds acc,
    @qrecsys.seed_items np_stable demo "dune" demo_options = inr seeds ∧
    for_each (@qrecsys.expand_seed np_stable demo demo_options) [] seeds
    = inr acc ∧
    NoDup acc ∧
    @qrecsys.recommend_indices np_stable demo "dune" demo_options
    = inr (take (Z.to_nat (n_to_recommend demo_options)) acc) ∧
    Forall2 (λ idx title, qrecsys.items demo !! idx = Some [title])
      (take (Z.to_nat (n_to_recommend demo_options)) acc)
      ["Dune"; "Solaris"] ∧
    (length ["Dune"; "Solaris"] ≤ Z.to_nat (n_to_recommend demo_options))%nat ∧
    ((∀ i j title, i ∈ acc → j ∈ acc →
        qrecsys.items demo !! i = Some [title] →
        qrecsys.items demo !! j = Some [title] → i = j) →
     NoDup ["Dune"; "Solaris"]).
Proof.
  apply (@recommend_bounded_distinct np_stable demo "dune" demo_options);
    [simpl; lia|vm_compute; reflexivity].
Defined.

Lemma recommend_no_interactions_witness :
  @qrecsys.seed_items np_stable demo_cold "dune" demo_options = inr [] ∧
  @qrecsys.recommend np_stable demo_cold "dune" demo_options = inr [].
Proof.
  apply (@recommend_no_interactions np_stable demo_cold "dune" demo_options);
    unfold is_empty; simpl; [reflexivity|lia..].
Defined.


(** C8 fails as stated: [K_use = 0] raises nothing, the recommendation is
    the empty list. *)
Lemma recommend_zero_K_use :
  K_use demo_options_zero ≤ 0 ∧
  @qrecsys.recommend np_stable demo "dune" demo_options_zero = inr [].
Proof. split; [simpl; lia|vm_compute; reflexivity]. Qed.

Lemma recommend_total_witness :
  ∃ titles,
    @qrecsys.recommend np_stable demo "dune" demo_options_negative
    = inr titles.
Proof.
  apply (@recommend_total np_stable demo "dune" demo_options_negative).
  unfold qrecsys.well_formed, is_empty, rectangular. simpl.
  repeat split; try lia.
  - repeat constructor.
  - intros idx Hidx.
    do 6 (destruct idx as [|idx]; [eexists; vm_compute; reflexivity|]). lia.
Defined.

Lemma recommend_dimension_mismatch_witness :
  ∃ why,
    @qrecsys.recommend np_stable demo_wide "dune" demo_options
    = inl (ValueError why) ∧
    (¬ is_empty (qrecsys.encoder demo_wide ["dune"]) →
     ¬ is_empty (qrecsys.embeds_use demo_wide) →
     why = IncompatibleDimension).
Proof.
  apply (@recommend_dimension_mismatch np_stable demo_wide "dune" demo_options).
  simpl. lia.
Defined.

(** ** The two files *)

(** In [recsys_pipeline.py] every call of [recommend] stops at its first
    call of [self._find_nearest]. *)
Lemma pipeline_recommend_raises (sort_kind : ArgSort)
    (self : recsys_pipeline.Recommender) (query : string) (o : options) :
  recsys_pipeline.recommend self query o
  = inl (TypeError (MultipleValues "K")).
Proof. reflexivity. Qed.

(** C10 does not hold of the code: on the six-item catalog and the same
    options, [qrecsys.py] computes the indices 3 and 4 and
    [recsys_pipeline.py] raises a [TypeError]. *)
Theorem recommend_files_diverge :
  @qrecsys.recommend_indices np_stable demo "dune" demo_options
  = inr [3%nat; 4%nat] ∧
  @recsys_pipeline.recommend np_stable demo_pipeline "dune" demo_options
  = inl (TypeError (MultipleValues "K")).
Proof. split; vm_compute; reflexivity. Qed.

(** * Beyond the recommendation core *)

(** ** [batch] *)

Lemma py_slice_nonneg {A} (l : list A) (a b : Z) :
  0 ≤ a ≤ b →
  py_slice l a b = take (Z.to_nat (b - a)) (drop (Z.to_nat a) l).
Proof.
  intros Hab. unfold py_slice. rewrite !decide_False by lia.
  destruct (decide (a ≤ Z.of_nat (length l))) as [Ha|Ha].
  - rewrite (Z.min_l a) by lia.
    destruct (decide (b ≤ Z.of_nat (length l))) as [Hb|Hb].
    + by rewrite (Z.min_l b) by lia.
    + rewrite (Z.min_r b) by lia.
      rewrite !take_ge; [done|rewrite length_drop; lia..].
  - rewrite !Z.min_r by lia.
    rewrite !(drop_ge l) by lia. by rewrite !take_nil.
Qed.

Lemma py_ceil_div_bounds (n d : Z) :
  0 < d → d * (py_ceil_div n d - 1) < n ≤ d * py_ceil_div n d.
Proof.
  intros Hd. unfold py_ceil_div.
  pose proof (Z.div_mod (- n) d) as Hdiv.
  pose proof (Z.mod_pos_bound (- n) d Hd) as Hmod. lia.
Qed.

(** For a positive size, batch [i] is the slice of [b] items from [i * b]. *)
Lemma batch_inr (items : list string) (batch_size : Z) :
  0 < batch_size →
  batch items batch_size
  = inr ((λ i, take (Z.to_nat batch_size) (drop (i * Z.to_nat batch_size) items))
         <$> seq 0 (Z.to_nat
                      (py_ceil_div (Z.of_nat (length items)) batch_size))).
Proof.
  intros Hb. unfold batch, py_range, seqZ. rewrite decide_False by lia.
  f_equal. rewrite <- list_fmap_compose. apply list_fmap_ext.
  intros _ i _. simpl. rewrite py_slice_nonneg by nia.
  f_equal; [f_equal; lia|f_equal; nia].
Qed.

Lemma concat_slices {A} (l : list A) (b k : nat) :
  concat ((λ i, take b (drop (i * b) l)) <$> seq 0 k) = take (k * b) l.
Proof.
  induction k as [|k IH]; [done|].
  rewrite seq_S, fmap_app, concat_app, IH. simpl.
  rewrite app_nil_r, take_take_drop. f_equal. lia.
Qed.


(** X2: for a positive batch size, no batch is empty or longer than the
    batch size, and every batch but the last is full. *)
Theorem batch_lengths (items : list string) (batch_size : Z)
    (batched_items : list (list string)) :
  0 < batch_size →
  batch items batch_size = inr batched_items →
  Forall (λ c, (1 ≤ length c)%nat ∧ Z.of_nat (length c) ≤ batch_size)
    batched_items ∧
  ∀ i c, batched_items !! i = Some c → (S i < length batched_items)%nat →
         Z.of_nat (length c) = batch_size.
Proof.
  intros Hb. rewrite batch_inr by done. intros [= <-].
  pose proof (py_ceil_div_bounds (Z.of_nat (length items)) batch_size Hb) as Hm.
  set (m := py_ceil_div (Z.of_nat (length items)) batch_size) in *.
  assert (Hlook : ∀ i c,
             ((λ i, take (Z.to_nat batch_size)
                      (drop (i * Z.to_nat batch_size) items))
              <$> seq 0 (Z.to_nat m)) !! i = Some c →
             (i < Z.to_nat m)%nat ∧
             length c = Nat.min (Z.to_nat batch_size)
                          (length items - i * Z.to_nat batch_size)).
  { intros i c Hc. rewrite list_lookup_fmap in Hc.
    destruct (seq 0 (Z.to_nat m) !! i) as [j|] eqn:Hj; [|discriminate].
    apply lookup_seq in Hj as [-> Hi]. injection Hc as <-.
    split; [done|]. by rewrite length_take, length_drop. }
  split.
  - apply Forall_forall. intros c (i & Hc)%list_elem_of_lookup_1.
    destruct (Hlook i c Hc) as [Hi ->]. nia.
  - intros i c Hc Hlast. rewrite length_fmap, length_seq in Hlast.
    destruct (Hlook i c Hc) as [Hi ->]. nia.
Qed.


(** X4: a batch size of zero raises [ZeroDivisionError]; a negative batch
    size raises nothing and returns no batch at all, whatever the items. *)
Theorem batch_nonpositive (items : list string) (batch_size : Z) :
  batch_size ≤ 0 →
  batch items batch_size
  = if decide (batch_size = 0) then inl ZeroDivisionError else inr [].
Proof.
  intros Hb. unfold batch. case_decide; [done|].
  unfold py_range, py_ceil_div. rewrite seqZ_nil; [done|].
  assert (0 ≤ (- Z.of_nat (length items)) `div` batch_size); [|lia].
  Z.div_mod_to_equations. nia.
Qed.

(** ** The title embeddings of [preprocess] *)

Lemma batch_lookup (items : list string) (batch_size : Z)
    (batched_items : list (list string)) (i : nat) (c : list string) :
  0 < batch_size →
  batch items batch_size = inr batched_items →
  batched_items !! i = Some c →
  c = take (Z.to_nat batch_size) (drop (i * Z.to_nat batch_size) items) ∧
  (i * Z.to_nat batch_size < length items)%nat.
Proof.
  intros Hb. rewrite batch_inr by done. intros [= <-] Hc.
  pose proof (py_ceil_div_bounds (Z.of_nat (length items)) batch_size Hb) as Hm.
  rewrite list_lookup_fmap in Hc.
  destruct (seq 0 _ !! i) as [j|] eqn:Hj; [|discriminate].
  apply lookup_seq in Hj as [-> Hi]. injection Hc as <-.
  split; [done|]. nia.
Qed.

Lemma concat_fmap_fmap {A B} (f : A → B) (ls : list (list A)) :
  concat ((λ l : list A, f <$> l) <$> ls) = f <$> concat ls.
Proof.
  induction ls as [|l ls IH]; [done|].
  by rewrite fmap_cons, !concat_cons, fmap_app, IH.
Qed.

(** X5: when the encoder embeds each title on its own, in vectors of one
    width, the stacked batch embeddings of a non-empty list of titles are
    the embeddings of the titles, one row per title and in their order:
    batching changes nothing, and [recsys_pipeline.py], which encodes all
    the titles in one call, computes the same matrix. *)
Theorem embed_titles_batching (model_use : list string → ndarray)
    (f : string → list Z) (D : nat) (titles : list string) :
  (∀ b, model_use b = f <$> b) → (∀ t, length (f t) = D) → titles ≠ [] →
  embed_titles model_use titles = inr (f <$> titles) ∧
  embed_titles model_use titles
  = inr (embed_titles_pipeline model_use titles).
Proof.
  intros Hf HD Hne.
  assert (embed_titles model_use titles = inr (f <$> titles)) as Heq.
  { unfold embed_titles.
    destruct (batch titles 32) as [e|bl] eqn:Hbl.
    { rewrite batch_inr in Hbl by lia. discriminate. }
    assert (concat bl = titles) as Hcat.
    { rewrite batch_inr in Hbl by lia. injection Hbl as <-.
      rewrite concat_slices. apply take_ge.
      pose proof (py_ceil_div_bounds (Z.of_nat (length titles)) 32). nia. }
    assert (Forall (λ c, ncols (model_use c) = D) bl) as Hw.
    { apply Forall_forall. intros c (i & Hc)%list_elem_of_lookup_1.
      destruct (batch_lookup titles 32 bl i c ltac:(lia) Hbl Hc) as [-> Hi].
      rewrite Hf.
      destruct (drop _ titles) as [|t rest] eqn:Hdrop.
      { apply (f_equal length) in Hdrop. rewrite length_drop in Hdrop.
        simpl in Hdrop. lia. }
      simpl. apply HD. }
    assert (concat (model_use <$> bl) = f <$> titles) as Hstack.
    { rewrite <- Hcat, <- concat_fmap_fmap. f_equal.
      apply list_fmap_ext. intros _ b _. apply Hf. }
    destruct bl as [|c bl].
    { simpl in Hcat. congruence. }
    apply Forall_cons in Hw as [Hc Hw].
    rewrite fmap_cons in *. unfold np_vstack. rewrite decide_True.
    - by rewrite Hstack.
    - apply Forall_fmap. eapply Forall_impl; [exact Hw|].
      intros b Hb. simpl. by rewrite Hb, Hc. }
  split; [done|]. unfold embed_titles_pipeline. by rewrite Heq, Hf.
Qed.

(** X6: with no title at all, [batch] gives no batch and [np.vstack] raises
    its [ValueError], whatever the encoder. *)
Theorem embed_titles_no_title (model_use : list string → ndarray) :
  embed_titles model_use [] = inl ValueError_vstack.
Proof. reflexivity. Qed.

(** ** The columns [preprocess] asks for *)

Lemma extra_column_iff (columns allowed : list string) :
  list_to_set columns ∖ list_to_set allowed ≠ (∅ : gset string)
  ↔ ∃ c, c ∈ columns ∧ c ∉ allowed.
Proof.
  split.
  - intros Hne. apply set_choose_L in Hne as [c Hc].
    exists c. set_solver.
  - intros (c & Hc & Hnc) Hempty.
    assert (c ∈ (list_to_set columns ∖ list_to_set allowed : gset string))
      as Hin by set_solver.
    rewrite Hempty in Hin. set_solver.
Qed.

Lemma missing_key_None (columns keys : list string) :
  missing_key columns keys = None ↔ ∀ k, k ∈ keys → k ∈ columns.
Proof.
  induction keys as [|k keys IH]; simpl.
  - split; [intros _ k' Hk'; by apply elem_of_nil in Hk'|done].
  - case_decide as Hk.
    + rewrite IH. split.
      * intros Hall k' [->|Hk']%elem_of_cons; auto.
      * intros Hall k' Hk'. apply Hall. by right.
    + split; [discriminate|]. intros Hall. destruct Hk. apply Hall. left.
Qed.

Lemma missing_key_Some (columns keys : list string) (k : string) :
  missing_key columns keys = Some k → k ∈ keys ∧ k ∉ columns.
Proof.
  induction keys as [|k' keys IH]; simpl; [discriminate|].
  case_decide as Hk'.
  - intros [Hin Hnot]%IH. split; [by right|done].
  - intros [= <-]. split; [left|done].
Qed.

(** X7: the checks of [preprocess] in [qrecsys.py] raise
    [ColumnNotFoundError] exactly when the interactions table has a column
    besides [interaction], [item] and [user] or the items table has no
    [title]; a missing [user] or [item] column passes them and is a
    [KeyError] at the [groupby], and a missing [interaction] column is not
    noticed there at all. *)
Theorem preprocess_columns_outcome (intxn_columns items_columns : list string) :
  (preprocess_columns intxn_columns items_columns = inl ColumnNotFoundError
   ↔ (∃ c, c ∈ intxn_columns ∧ c ∉ ["interaction"; "item"; "user"])
     ∨ "title" ∉ items_columns) ∧
  (∀ k, preprocess_columns intxn_columns items_columns
        = inl (KeyError_column k) →
        (k = "user" ∨ k = "item") ∧ k ∉ intxn_columns) ∧
  (preprocess_columns intxn_columns items_columns = inr ()
   ↔ (∀ c, c ∈ intxn_columns → c ∈ ["interaction"; "item"; "user"]) ∧
     "title" ∈ items_columns ∧
     "user" ∈ intxn_columns ∧ "item" ∈ intxn_columns).
Proof.
  unfold preprocess_columns.
  destruct (decide (list_to_set intxn_columns ∖ _ ≠ ∅)) as [Hextra|Hextra].
  { apply extra_column_iff in Hextra. split; [|split].
    - split; [intros _; by left|done].
    - intros k. discriminate.
    - split; [discriminate|]. intros (Hall & _).
      destruct Hextra as (c & Hc & Hnc). destruct Hnc. auto. }
  assert (∀ c, c ∈ intxn_columns → c ∈ ["interaction"; "item"; "user"]) as Hall.
  { intros c Hc. destruct (decide (c ∈ ["interaction"; "item"; "user"])); [done|].
    destruct Hextra. apply extra_column_iff. eauto. }
  assert (¬ ∃ c, c ∈ intxn_columns ∧ c ∉ ["interaction"; "item"; "user"])
    as Hnone.
  { intros (c & Hc & Hnc). auto. }
  destruct (decide ("title" ∉ items_columns)) as [Htitle|Htitle].
  { split; [|split].
    - split; [intros _; by right|done].
    - intros k. discriminate.
    - split; [discriminate|]. tauto. }
  apply dec_stable in Htitle.
  destruct (missing_key intxn_columns ["user"; "item"]) as [k|] eqn:Hk.
  - apply missing_key_Some in Hk as [Hin Hnot].
    assert (k = "user" ∨ k = "item") as Hwhich.
    { apply elem_of_cons in Hin as [->|Hin]; [by left|].
      apply elem_of_cons in Hin as [->|Hin]; [by right|].
      by apply elem_of_nil in Hin. }
    split; [|split].
    + split; [discriminate|]. tauto.
    + by intros k' [= <-].
    + split; [discriminate|]. intros (_ & _ & Hu & Hi).
      by destruct Hwhich as [->| ->].
  - rewrite missing_key_None in Hk. split; [|split].
    + split; [discriminate|]. tauto.
    + intros k. discriminate.
    + split; [|done]. intros _.
      repeat split; try done; apply Hk; set_solver.
Qed.

(** X8: the checks and column reads of [preprocess] in
    [recsys_pipeline.py] all pass exactly when the columns of the
    interactions table are [interaction], [item] and [user], each present
    and no other, and the items table has a [title]. *)
Theorem preprocess_columns_pipeline_passes
    (intxn_columns items_columns : list string) :
  preprocess_columns_pipeline intxn_columns items_columns = inr ()
  ↔ (∀ c, c ∈ intxn_columns ↔ c ∈ ["interaction"; "item"; "user"]) ∧
    "title" ∈ items_columns.
Proof.
  unfold preprocess_columns_pipeline.
  destruct (decide (list_to_set intxn_columns ∖ _ ≠ ∅)) as [Hextra|Hextra].
  { apply extra_column_iff in Hextra as (c & Hc & Hnc).
    split; [discriminate|]. intros [Hall _]. destruct Hnc. by apply Hall. }
  assert (∀ c, c ∈ intxn_columns → c ∈ ["interaction"; "item"; "user"]) as Hall.
  { intros c Hc. destruct (decide (c ∈ ["interaction"; "item"; "user"])); [done|].
    destruct Hextra. apply extra_column_iff. eauto. }
  destruct (decide ("title" ∉ items_columns)) as [Htitle|Htitle].
  { split; [discriminate|]. tauto. }
  apply dec_stable in Htitle.
  destruct (missing_key intxn_columns _) as [k|] eqn:Hk.
  - apply missing_key_Some in Hk as [Hin Hnot].
    split; [discriminate|]. intros [Hiff _]. destruct Hnot. by apply Hiff.
  - rewrite missing_key_None in Hk. split; [|done]. intros _.
    split; [|done]. intros c. split; auto.
Qed.

(** ** More on [_find_nearest] *)

Section finder_slices.
Context {sort_kind : ArgSort}.

(** X9: on a query array of several rows, [_find_nearest] answers for the
    last row only: [[::-1]] puts the last row of the argsort first and
    [[0]] reads it. *)
Theorem find_nearest_last_query (xs : ndarray) (q : list Z) (y : ndarray)
    (K : Z) :
  rectangular (xs ++ [q]) → q ≠ [] → y ≠ [] → ncols y = length q →
  ∃ r, qrecsys._find_nearest [q] y K = inr r ∧
       qrecsys._find_nearest (xs ++ [q]) y K = inr r.
Proof.
  intros Hrect Hq Hy Hc. eexists. split; [by apply find_nearest_single|].
  assert (length q = ncols (xs ++ [q])) as Hlen.
  { eapply Forall_forall in Hrect; [exact Hrect|].
    apply elem_of_app. right. left. }
  assert (length q ≠ 0%nat) as Hq0 by (by intros ?%length_zero_iff_nil).
  apply find_nearest_inr.
  - unfold is_empty, nrows. rewrite length_app. simpl. lia.
  - unfold is_empty, nrows. rewrite Hc.
    intros [?%length_zero_iff_nil|?]; done.
  - lia.
Qed.

(** X10: a negative [K] raises nothing and drops the [-K] farthest rows
    from the full order; from [K = -N] down the result is empty. *)
Theorem find_nearest_negative_stop (q : list Z) (y : ndarray) (K : Z) :
  q ≠ [] → y ≠ [] → ncols y = length q → K < 0 →
  ∃ full, qrecsys._find_nearest [q] y (Z.of_nat (nrows y)) = inr full ∧
          length full = nrows y ∧
          qrecsys._find_nearest [q] y K
          = inr (take (nrows y - Z.to_nat (- K)) full) ∧
          (K ≤ - Z.of_nat (nrows y) → qrecsys._find_nearest [q] y K = inr []).
Proof.
  intros Hq Hy Hc HK. rewrite !find_nearest_single by done.
  set (order := argsort (sqdist q <$> y)).
  assert (length order = nrows y) as Hlen.
  { unfold order, nrows. by rewrite argsort_length, length_fmap. }
  exists order. rewrite py_slice_to_nonneg by lia.
  rewrite py_slice_to_neg by done. rewrite Nat2Z.id, Hlen.
  split; [by rewrite take_ge by lia|]. split; [done|]. split; [done|].
  intros HN. replace (nrows y - Z.to_nat (- K))%nat with 0%nat by lia. done.
Qed.

(** X11: the result for [K] is the beginning of the result for any larger
    [K']: asking for more neighbours never changes the ones already
    returned. *)
Theorem find_nearest_prefix (q : list Z) (y : ndarray) (K K' : Z) :
  q ≠ [] → y ≠ [] → ncols y = length q → 0 ≤ K ≤ K' →
  ∃ r r', qrecsys._find_nearest [q] y K = inr r ∧
          qrecsys._find_nearest [q] y K' = inr r' ∧
          r = take (Z.to_nat K) r'.
Proof.
  intros Hq Hy Hc HK. rewrite !find_nearest_single by done.
  do 2 eexists. split; [done|]. split; [done|].
  rewrite !py_slice_to_nonneg by lia. rewrite take_take. f_equal. lia.
Qed.

End finder_slices.

(** ** More on [recommend] *)

Lemma for_each_app {S A} (body : S → A → result S) (s : S) (l1 l2 : list A) :
  for_each body s (l1 ++ l2)
  = for_each body s l1 ≫= λ s', for_each body s' l2.
Proof.
  revert s. induction l1 as [|a l1 IH]; intros s; simpl; [done|].
  destruct (body s a) as [e|s1]; simpl; [done|apply IH].
Qed.

Lemma mapM_app_inl {A B} (f : A → result B) (pre post : list A) (a : A)
    (e : exn) :
  (∀ i, i ∈ pre → ∃ b, f i = inr b) → f a = inl e →
  mapM f (pre ++ a :: post) = inl e.
Proof.
  intros Hpre Ha. induction pre as [|i pre IH]; simpl.
  - by rewrite Ha.
  - destruct (Hpre i) as [b Hb]; [left|]. rewrite Hb. simpl.
    rewrite IH; [done|]. intros j Hj. apply Hpre. by right.
Qed.




Section recommender_more.
Context {sort_kind : ArgSort}.

Lemma seed_items_facts (self : qrecsys.Recommender) (query : string)
    (o : options) (seeds : list nat) :
  qrecsys.seed_items self query o = inr seeds →
  Forall (λ i, i ∈ qrecsys.interacted_items self) seeds ∧ NoDup seeds.
Proof.
  intros (item_ids & Hr & ->)%seed_items_inv. split.
  - apply Forall_forall. intros i Hi.
    eapply elem_of_sublist in Hi; [|apply py_slice_to_sublist].
    by apply list_elem_of_filter in Hi as [? _].
  - eapply sublist_NoDup; [|apply py_slice_to_sublist].
    apply NoDup_filter. by eapply find_nearest_NoDup.
Qed.

Lemma expand_length (self : qrecsys.Recommender) (o : options)
    (seeds acc0 acc : list nat) :
  0 ≤ K_mf o →
  for_each (qrecsys.expand_seed self o) acc0 seeds = inr acc →
  (length acc ≤ length acc0 + length seeds * Z.to_nat (K_mf o))%nat.
Proof.
  intros HK. revert acc0. induction seeds as [|s seeds IH]; intros acc0; simpl.
  - intros [= <-]. lia.
  - intros (acc1 & H1 & Hrest)%bind_inr. apply IH in Hrest.
    apply expand_seed_inv in H1 as (row & mf_items & _ & _ & ->).
    rewrite length_app, py_slice_to_nonneg, length_take in Hrest by done. lia.
Qed.


(** X12: every seed item is an interacted item and a row of the semantic
    matrix, no seed is repeated, and for a non-negative [K_use] there are
    at most [K_use] seeds. *)
Theorem seed_items_interacted (self : qrecsys.Recommender) (query : string)
    (o : options) (seeds : list nat) :
  qrecsys.seed_items self query o = inr seeds →
  Forall (λ i, i ∈ qrecsys.interacted_items self) seeds ∧
  Forall (λ i, (i < nrows (qrecsys.embeds_use self))%nat) seeds ∧
  NoDup seeds ∧
  (0 ≤ K_use o → Z.of_nat (length seeds) ≤ K_use o).
Proof.
  intros Hseeds. destruct (seed_items_facts _ _ _ _ Hseeds) as [Hin Hnd].
  split; [done|]. split; [by eapply seed_items_bound|]. split; [done|].
  intros HK. apply seed_items_inv in Hseeds as (item_ids & _ & ->).
  rewrite py_slice_to_nonneg, length_take by done. lia.
Qed.

(** X13: every recommended index is a row of the collaborative matrix, and
    for non-negative [K_use] and [K_mf] at most [K_use * K_mf] indices are
    recommended, whatever [n_to_recommend] and the buffer multipliers. *)
Theorem recommend_indices_bounds (self : qrecsys.Recommender)
    (query : string) (o : options) (recs : list nat) :
  qrecsys.recommend_indices self query o = inr recs →
  Forall (λ i, (i < nrows (qrecsys.embeds_mf self))%nat) recs ∧
  (0 ≤ K_use o → 0 ≤ K_mf o → Z.of_nat (length recs) ≤ K_use o * K_mf o).
Proof.
  unfold qrecsys.recommend_indices.
  intros (seeds & Hseeds & Hrecs)%bind_inr.
  apply bind_inr in Hrecs as (acc & Hacc & [= <-]).
  split.
  - apply Forall_forall. intros i Hi.
    eapply elem_of_sublist in Hi; [|apply py_slice_to_sublist].
    assert (Forall (λ i, (i < nrows (qrecsys.embeds_mf self))%nat) acc) as Hb.
    { eapply (for_each_inv (Forall _)); [|constructor|exact Hacc].
      intros recs a recs' _. apply expand_seed_bound. }
    by eapply Forall_forall in Hb.
  - intros HKu HKm.
    pose proof (sublist_length _ _ (py_slice_to_sublist acc (n_to_recommend o))).
    pose proof (expand_length _ _ _ _ _ HKm Hacc) as Hlen. simpl in Hlen.
    apply seed_items_inv in Hseeds as (item_ids & _ & ->).
    rewrite py_slice_to_nonneg, length_take in Hlen by done. nia.
Qed.

(** X14: a seed item without a row in the collaborative matrix makes
    [recommend] raise [IndexError] when the loop reaches it. *)
Theorem recommend_seed_without_row (self : qrecsys.Recommender)
    (query : string) (o : options) (pre : list nat) (s : nat)
    (rest acc : list nat) :
  qrecsys.seed_items self query o = inr (pre ++ s :: rest) →
  for_each (qrecsys.expand_seed self o) [] pre = inr acc →
  qrecsys.embeds_mf self !! s = None →
  qrecsys.recommend_indices self query o = inl IndexError ∧
  qrecsys.recommend self query o = inl IndexError.
Proof.
  intros Hseeds Hpre Hs.
  assert (qrecsys.recommend_indices self query o = inl IndexError) as Hidx.
  { unfold qrecsys.recommend_indices. rewrite Hseeds. simpl.
    rewrite for_each_app, Hpre. simpl.
    assert (qrecsys.expand_seed self o acc s = inl IndexError) as ->; [|done].
    unfold qrecsys.expand_seed, np_row. by rewrite Hs. }
  split; [done|]. unfold qrecsys.recommend. by rewrite Hidx.
Qed.

(** X15: when the arrays are well shaped and every interacted item has a
    row in the collaborative matrix, the index list is computed without an
    exception for every value of the options, even if the collaborative
    matrix has fewer rows than the semantic one. *)
Theorem recommend_indices_total (self : qrecsys.Recommender)
    (query : string) (o : options) :
  ¬ is_empty (qrecsys.encoder self [query]) →
  ¬ is_empty (qrecsys.embeds_use self) →
  ncols (qrecsys.encoder self [query]) = ncols (qrecsys.embeds_use self) →
  ¬ is_empty (qrecsys.embeds_mf self) →
  rectangular (qrecsys.embeds_mf self) →
  (∀ i, i ∈ qrecsys.interacted_items self →
        (i < nrows (qrecsys.embeds_mf self))%nat) →
  ∃ recs, qrecsys.recommend_indices self query o = inr recs.
Proof.
  intros Hx Hy Hc Hmf Hrect Hrows.
  destruct (qrecsys.seed_items self query o) as [e|seeds] eqn:Hseeds.
  { exfalso. unfold qrecsys.seed_items in Hseeds.
    rewrite self_find_nearest_eq in Hseeds.
    apply bind_inl in Hseeds as [He|(? & _ & ?)]; [|discriminate].
    assert (raises (qrecsys._find_nearest (qrecsys.encoder self [query])
              (qrecsys.embeds_use self) (K_use o * use_buffer_multiplier o)))
      as Hraise by (by exists e).
    apply find_nearest_raises_iff in Hraise. tauto. }
  destruct (seed_items_facts _ _ _ _ Hseeds) as [Hin _].
  destruct (for_each_total (λ _, True) (qrecsys.expand_seed self o) seeds [])
    as (acc & Hacc & _); [|done|].
  { intros recs s Hs _. eapply Forall_forall in Hin; [|exact Hs].
    apply Hrows, lookup_lt_is_Some_2 in Hin as [row Hrow].
    assert (length row = ncols (qrecsys.embeds_mf self)) as Hlen.
    { eapply Forall_forall in Hrect; [exact Hrect|].
      by eapply list_elem_of_lookup_2. }
    assert (row ≠ []) as Hne.
    { intros ->. apply Hmf. right. by rewrite <- Hlen. }
    eexists. split; [by apply (expand_seed_inr _ _ _ _ row)|done]. }
  eexists. unfold qrecsys.recommend_indices. rewrite Hseeds. simpl.
  by rewrite Hacc.
Qed.

(** X16: [recommend] maps the indices to titles from left to right and
    stops at the first index it cannot map: [KeyError] when the catalog has
    no row for it, the [ValueError] of [Series.item()] when its row has not
    exactly one column. *)
Theorem recommend_title_errors (self : qrecsys.Recommender) (query : string)
    (o : options) (pre : list nat) (idx : nat) (post : list nat) :
  qrecsys.recommend_indices self query o = inr (pre ++ idx :: post) →
  (∀ i, i ∈ pre → ∃ title, qrecsys.items self !! i = Some [title]) →
  (qrecsys.items self !! idx = None →
   qrecsys.recommend self query o = inl KeyError) ∧
  (∀ row, qrecsys.items self !! idx = Some row → length row ≠ 1%nat →
          qrecsys.recommend self query o = inl (ValueError NotScalar)).
Proof.
  intros Hidx Hpre. unfold qrecsys.recommend. rewrite Hidx. simpl.
  assert (∀ i, i ∈ pre → ∃ b, qrecsys.title_of self i = inr b) as Hpre'.
  { intros i [title Ht]%Hpre. exists title. by apply title_of_inr. }
  split.
  - intros Hnone. apply mapM_app_inl; [done|].
    unfold qrecsys.title_of. by rewrite Hnone.
  - intros row Hrow Hlen. apply mapM_app_inl; [done|].
    unfold qrecsys.title_of. rewrite Hrow.
    by destruct row as [|t [|t' row]].
Qed.


End recommender_more.

(** ** The extra properties on the catalog of six items *)


Lemma batch_lengths_witness :
  Forall (λ c, (1 ≤ length c)%nat ∧ Z.of_nat (length c) ≤ 32)
    [replicate 32 "Dune"; "Dune" :: replicate 7 "Solaris"] ∧
  ∀ i c,
    [replicate 32 "Dune"; "Dune" :: replicate 7 "Solaris"] !! i = Some c →
    (S i < length [replicate 32 "Dune"; "Dune" :: replicate 7 "Solaris"])%nat →
    Z.of_nat (length c) = 32.
Proof.
  apply (batch_lengths demo_titles 32); [lia|vm_compute; reflexivity].
Defined.


Lemma batch_nonpositive_witness :
  batch demo_titles (-32)
  = if decide (-32 = 0) then inl ZeroDivisionError else inr [].
Proof. apply (batch_nonpositive demo_titles (-32)). lia. Defined.

Lemma embed_titles_batching_witness :
  embed_titles demo_model_use demo_titles
  = inr ((λ title, [Z.of_nat (String.length title)]) <$> demo_titles) ∧
  embed_titles demo_model_use demo_titles
  = inr (embed_titles_pipeline demo_model_use demo_titles).
Proof.
  apply (embed_titles_batching demo_model_use
           (λ title, [Z.of_nat (String.length title)]) 1 demo_titles);
    [reflexivity|reflexivity|discriminate].
Defined.

Lemma find_nearest_last_query_witness :
  ∃ r, @qrecsys._find_nearest np_stable [[0; 0]] demo_use 3 = inr r ∧
       @qrecsys._find_nearest np_stable ([[9; 1]; [7; 2]] ++ [[0; 0]])
         demo_use 3 = inr r.
Proof.
  apply (@find_nearest_last_query np_stable [[9; 1]; [7; 2]] [0; 0] demo_use 3);
    [repeat constructor|discriminate|discriminate|reflexivity].
Defined.

Lemma find_nearest_negative_stop_witness :
  ∃ full,
    @qrecsys._find_nearest np_stable [[0; 0]] demo_use
      (Z.of_nat (nrows demo_use)) = inr full ∧
    length full = nrows demo_use ∧
    @qrecsys._find_nearest np_stable [[0; 0]] demo_use (-2)
    = inr (take (nrows demo_use - Z.to_nat (- -2)) full) ∧
    (-2 ≤ - Z.of_nat (nrows demo_use) →
     @qrecsys._find_nearest np_stable [[0; 0]] demo_use (-2) = inr []).
Proof.
  apply (@find_nearest_negative_stop np_stable [0; 0] demo_use (-2));
    [discriminate|discriminate|reflexivity|lia].
Defined.

Lemma find_nearest_prefix_witness :
  ∃ r r', @qrecsys._find_nearest np_stable [[0; 0]] demo_use 2 = inr r ∧
          @qrecsys._find_nearest np_stable [[0; 0]] demo_use 4 = inr r' ∧
          r = take (Z.to_nat 2) r'.
Proof.
  apply (@find_nearest_prefix np_stable [0; 0] demo_use 2 4);
    [discriminate|discriminate|reflexivity|lia].
Defined.

Lemma seed_items_interacted_witness :
  Forall (λ i, i ∈ qrecsys.interacted_items demo) [3%nat; 1%nat] ∧
  Forall (λ i, (i < nrows (qrecsys.embeds_use demo))%nat) [3%nat; 1%nat] ∧
  NoDup [3%nat; 1%nat] ∧
  (0 ≤ K_use default_options
   → Z.of_nat (length [3%nat; 1%nat]) ≤ K_use default_options).
Proof.
  apply (@seed_items_interacted np_stable demo "dune" default_options).
  vm_compute. reflexivity.
Defined.

Lemma recommend_indices_bounds_witness :
  Forall (λ i, (i < nrows (qrecsys.embeds_mf demo))%nat) [3%nat; 4%nat] ∧
  (0 ≤ K_use demo_options → 0 ≤ K_mf demo_options →
   Z.of_nat (length [3%nat; 4%nat]) ≤ K_use demo_options * K_mf demo_options).
Proof.
  apply (@recommend_indices_bounds np_stable demo "dune" demo_options).
  vm_compute. reflexivity.
Defined.

Lemma recommend_seed_without_row_witness :
  @qrecsys.recommend_indices np_stable demo_two_factors "dune" default_options
  = inl IndexError ∧
  @qrecsys.recommend np_stable demo_two_factors "dune" default_options
  = inl IndexError.
Proof.
  apply (@recommend_seed_without_row np_stable demo_two_factors "dune"
           default_options [] 3%nat [1%nat] []);
    [vm_compute; reflexivity|reflexivity|reflexivity].
Defined.

Lemma recommend_indices_total_witness :
  ∃ recs,
    @qrecsys.recommend_indices np_stable demo_four_factors "dune"
      default_options = inr recs.
Proof.
  apply (@recommend_indices_total np_stable demo_four_factors "dune"
           default_options); unfold is_empty, rectangular; simpl;
    try lia.
  - repeat constructor.
  - intros i Hi. assert (i = 1%nat ∨ i = 3%nat) as [->| ->] by set_solver; lia.
Defined.

Lemma recommend_title_errors_witness :
  (qrecsys.items demo_no_solaris !! 4%nat = None →
   @qrecsys.recommend np_stable demo_no_solaris "dune" demo_options
   = inl KeyError) ∧
  (∀ row, qrecsys.items demo_no_solaris !! 4%nat = Some row →
          length row ≠ 1%nat →
          @qrecsys.recommend np_stable demo_no_solaris "dune" demo_options
          = inl (ValueError NotScalar)).
Proof.
  apply (@recommend_title_errors np_stable demo_no_solaris "dune" demo_options
           [3%nat] 4%nat []).
  - vm_compute. reflexivity.
  - intros i ->%list_elem_of_singleton. exists "Dune". vm_compute. reflexivity.
Defined.

